(** * Swizzle table generator: [spirv/src/data/shuffle.py]

  The script prints, for swizzle lengths 1 to 4 and arities 2 to 4, one
  line per index tuple: the component letters followed by the indices.
  This development embeds the script (the four hand-unrolled loop nests
  and the top-level sequence of calls) over a small model of the Python
  runtime pieces it uses ([range], [str.format], [print]) and proves the
  properties of the generated listing. *)

From Stdlib Require Import ZArith List Bool Lia.
From Stdlib Require Import Strings.Ascii Strings.String.
From Stdlib Require Import Numbers.DecimalString Numbers.DecimalZ Numbers.DecimalPos.
Import ListNotations.

Open Scope string_scope.
Open Scope list_scope.
Open Scope Z_scope.

(** ** The Python runtime pieces the script uses *)

Module Py.

(** Exceptions the modelled operations can raise. *)
Inductive exn : Set :=
| IndexError   (* a replacement field without an argument *)
| ValueError   (* a lone brace in a format string *)
| NameError.   (* a call of a name that is not defined *)

Inductive result (A : Type) : Type :=
| Ok (a : A)
| Raised (e : exn).
Arguments Ok {A} a.
Arguments Raised {A} e.

(** The process-wide output stream, as the lines written so far: each
    [print] call of the script writes one line. *)
Definition stdout : Type := list string.

(** Computations that write to the stream and may raise.  What was
    written before an exception stays written. *)
Definition M (A : Type) : Type := stdout -> result A * stdout.

Definition ret {A} (a : A) : M A := fun out => (Ok a, out).

Definition bind {A B} (m : M A) (f : A -> M B) : M B :=
  fun out =>
    match m out with
    | (Ok a, out') => f a out'
    | (Raised e, out') => (Raised e, out')
    end.

Definition raise {A} (e : exn) : M A := fun out => (Raised e, out).

Definition lift {A} (r : result A) : M A := fun out => (r, out).

(** [print(s)] for a string without a newline: one more line. *)
Definition print (s : string) : M unit := fun out => (Ok tt, out ++ [s]).

(** The values passed to [str.format] in the script. *)
Inductive value : Set :=
| VStr (s : string)
| VInt (i : Z).

(** [str(i)] for an integer: its decimal numeral, with a minus sign for
    negative numbers. *)
Definition str_int (i : Z) : string := NilZero.string_of_int (Z.to_int i).

Definition str (v : value) : string :=
  match v with
  | VStr s => s
  | VInt i => str_int i
  end.

(** [fmt.format(args...)] for format strings whose only replacement fields
    are the automatically numbered [{}]: each takes the next argument;
    arguments left over are ignored; a field without an argument raises
    [IndexError] and a lone brace raises [ValueError]. *)
Fixpoint format (fmt : string) (args : list value) : result string :=
  match fmt with
  | EmptyString => Ok EmptyString
  | String "{" (String "}" rest) =>
      match args with
      | a :: args' =>
          match format rest args' with
          | Ok s => Ok (str a ++ s)%string
          | Raised e => Raised e
          end
      | [] => Raised IndexError
      end
  | String c rest =>
      if (Ascii.eqb c "{" || Ascii.eqb c "}")%bool then Raised ValueError
      else match format rest args with
           | Ok s => Ok (String c s)
           | Raised e => Raised e
           end
  end.

(** [range(lo, hi)]: the integers from [lo] up to [hi - 1]; empty when
    [hi <= lo]. *)
Definition range (lo hi : Z) : list Z :=
  map (fun n => lo + Z.of_nat n) (seq 0 (Z.to_nat (hi - lo))).

(** [for x in xs: body(x)]. *)
Fixpoint for_each {A} (xs : list A) (body : A -> M unit) : M unit :=
  match xs with
  | [] => ret tt
  | x :: xs' => bind (body x) (fun _ => for_each xs' body)
  end.

(** Running a computation from an empty stream: the lines it writes. *)
Definition lines_of (m : M unit) : list string := snd (m []).

(** Whether it ends without an exception. *)
Definition terminates_normally (m : M unit) : Prop := fst (m []) = Ok tt.

End Py.

Import Py.

Declare Scope py_scope.
Delimit Scope py_scope with py.
Notation "x <- m ;; k" := (bind m (fun x => k))
(at level 61, m at next level, right associativity) : py_scope.
Notation "m ;; k" := (bind m (fun _ => k))
(at level 61, right associativity) : py_scope.
Notation "'for_' x 'in_' xs 'do_' body" := (for_each xs (fun x => body))
(at level 62, x name, xs at next level, right associativity) : py_scope.
Open Scope py_scope.

(** ** The script *)

Module Shuffle.

Definition unit_swizzels (r : Z) : M unit :=
  for_ i in_ (range 0 r) do_
    let c := "" in
    let c := if i =? 0 then "x"
             else if i =? 1 then "y"
             else if i =? 2 then "z"
             else if i =? 3 then "w"
             else c in
    s <- lift (format "{}, {}," [VStr c; VInt i]) ;;
    print s.

Definition vec2_swizzels (r : Z) : M unit :=
  for_ i in_ (range 0 r) do_
  for_ j in_ (range 0 r) do_
    let c0 := "" in
    let c0 := if i =? 0 then "x"
              else if i =? 1 then "y"
              else if i =? 2 then "z"
              else if i =? 3 then "w"
              else c0 in
    let c1 := "" in
    let c1 := if j =? 0 then "x"
              else if j =? 1 then "y"
              else if j =? 2 then "z"
              else if j =? 3 then "w"
              else c1 in
    s <- lift (format "{}{}, {}, {}," [VStr c0; VStr c1; VInt i; VInt j]) ;;
    print s.

Definition vec3_swizzels (r : Z) : M unit :=
  for_ i in_ (range 0 r) do_
  for_ j in_ (range 0 r) do_
  for_ k in_ (range 0 r) do_
    let c0 := "" in
    let c0 := if i =? 0 then "x"
              else if i =? 1 then "y"
              else if i =? 2 then "z"
              else if i =? 3 then "w"
              else c0 in
    let c1 := "" in
    let c1 := if j =? 0 then "x"
              else if j =? 1 then "y"
              else if j =? 2 then "z"
              else if j =? 3 then "w"
              else c1 in
    let c2 := "" in
    let c2 := if k =? 0 then "x"
              else if k =? 1 then "y"
              else if k =? 2 then "z"
              else if k =? 3 then "w"
              else c2 in
    s <- lift (format "{}{}{}, {}, {}, {},"
                      [VStr c0; VStr c1; VStr c2; VInt i; VInt j; VInt k]) ;;
    print s.

Definition vec4_swizzels (r : Z) : M unit :=
  for_ i in_ (range 0 r) do_
  for_ j in_ (range 0 r) do_
  for_ k in_ (range 0 r) do_
  for_ l in_ (range 0 r) do_
    let c0 := "" in
    let c0 := if i =? 0 then "x"
              else if i =? 1 then "y"
              else if i =? 2 then "z"
              else if i =? 3 then "w"
              else c0 in
    let c1 := "" in
    let c1 := if j =? 0 then "x"
              else if j =? 1 then "y"
              else if j =? 2 then "z"
              else if j =? 3 then "w"
              else c1 in
    let c2 := "" in
    let c2 := if k =? 0 then "x"
              else if k =? 1 then "y"
              else if k =? 2 then "z"
              else if k =? 3 then "w"
              else c2 in
    let c3 := "" in
    let c3 := if l =? 0 then "x"
              else if l =? 1 then "y"
              else if l =? 2 then "z"
              else if l =? 3 then "w"
              else c3 in
    s <- lift (format "{}{}{}{}, {}, {}, {}, {},"
                      [VStr c0; VStr c1; VStr c2; VStr c3;
                       VInt i; VInt j; VInt k; VInt l]) ;;
    print s.

(** The four functions the script defines. *)
Inductive func : Set :=
| f_unit_swizzels
| f_vec2_swizzels
| f_vec3_swizzels
| f_vec4_swizzels.

Definition call (f : func) (r : Z) : M unit :=
  match f with
  | f_unit_swizzels => unit_swizzels r
  | f_vec2_swizzels => vec2_swizzels r
  | f_vec3_swizzels => vec3_swizzels r
  | f_vec4_swizzels => vec4_swizzels r
  end.

(** The statements at the top level of the script, besides the
    function definitions. *)
Inductive stmt : Set :=
| Call (f : func) (r : Z)
| Print (s : string).

Definition exec (s : stmt) : M unit :=
  match s with
  | Call f r => call f r
  | Print s => print s
  end.

Fixpoint exec_all (ss : list stmt) : M unit :=
  match ss with
  | [] => ret tt
  | s :: ss' => exec s ;; exec_all ss'
  end.

Definition script : list stmt :=
  [ Call f_unit_swizzels 2; Print "";
    Call f_unit_swizzels 3; Print "";
    Call f_unit_swizzels 4; Print "";
    Call f_vec2_swizzels 2; Print "";
    Call f_vec2_swizzels 3; Print "";
    Call f_vec2_swizzels 4; Print "";
    Call f_vec3_swizzels 2; Print "";
    Call f_vec3_swizzels 3; Print "";
    Call f_vec3_swizzels 4; Print "";
    Call f_vec4_swizzels 2; Print "";
    Call f_vec4_swizzels 3; Print "";
    Call f_vec4_swizzels 4; Print "" ].

Definition main : M unit := exec_all script.

(** The number of loop indices a function combines: the swizzle
    length. *)
Definition swizzle_length (f : func) : nat :=
  match f with
  | f_unit_swizzels => 1
  | f_vec2_swizzels => 2
  | f_vec3_swizzels => 3
  | f_vec4_swizzels => 4
  end%nat.

(** [emit k r]: the function of the script for swizzle length [k],
    called with [r].  There is none for other lengths. *)
Definition emit (k : nat) (r : Z) : M unit :=
  match k with
  | 1%nat => unit_swizzels r
  | 2%nat => vec2_swizzels r
  | 3%nat => vec3_swizzels r
  | 4%nat => vec4_swizzels r
  | _ => raise NameError
  end.

End Shuffle.

Import Shuffle.

(** ** The generic emitter of the design notes *)

Module Generic.

(** The Component Alphabet: four single-character labels, indexed 0..3. *)
Definition alphabet : list string := ["x"; "y"; "z"; "w"].

(** The one shared index-to-label lookup.  An index the alphabet does not
    cover gives the empty fragment, as the conditional chains do. *)
Definition label (i : Z) : string :=
  if (0 <=? i) && (i <? Z.of_nat (List.length alphabet))
  then nth (Z.to_nat i) alphabet ""
  else "".

(** All index tuples of length [k] over [range 0 r], by recursive
    combination: the leftmost index varies slowest. *)
Fixpoint tuples (k : nat) (r : Z) : list (list Z) :=
  match k with
  | O => [[]]
  | S k' => flat_map (fun i => map (cons i) (tuples k' r)) (range 0 r)
  end.

(** The line of a tuple: the labels, then [", "] and the numeral for each
    index, then a trailing comma. *)
Definition line (t : list Z) : string :=
  (String.concat "" (map label t)
   ++ String.concat "" (map (fun i => ", " ++ str_int i) t)
   ++ ",")%string.

Definition emit (k : nat) (r : Z) : M unit :=
  for_ t in_ (tuples k r) do_ print (line t).

End Generic.

(** ** Reading a line back *)

Module Line.

(** The fields of a line: the pieces between commas. *)
Fixpoint split_on (sep : ascii) (s : string) : list string :=
  match s with
  | EmptyString => [EmptyString]
  | String c s' =>
      if Ascii.eqb c sep then EmptyString :: split_on sep s'
      else match split_on sep s' with
           | f :: fs => String c f :: fs
           | [] => [String c EmptyString]
           end
  end.

(** The label string: what stands before the first comma. *)
Definition label (l : string) : string := hd "" (split_on "," l).

(** An index field: one space, then a decimal numeral. *)
Definition index_of_field (f : string) : option Z :=
  match f with
  | String " " d => option_map Z.of_int (NilZero.int_of_string d)
  | _ => None
  end.

Fixpoint all_some {A} (xs : list (option A)) : option (list A) :=
  match xs with
  | [] => Some []
  | Some x :: xs' => option_map (cons x) (all_some xs')
  | None :: _ => None
  end.

(** The index tuple: the fields after the label, up to the trailing
    comma, which nothing may follow. *)
Definition indices (l : string) : option (list Z) :=
  let fs := tl (split_on "," l) in
  match last fs "?" with
  | EmptyString => all_some (map index_of_field (removelast fs))
  | _ => None
  end.

End Line.

(** ** Auxiliary notions for the statements *)

(** [writes m ls]: from any state of the stream, [m] ends normally and
    has appended exactly the lines [ls]. *)
Definition writes (m : M unit) (ls : list string) : Prop :=
  forall out, m out = (Ok tt, out ++ ls).

(** [free sep s]: the character [sep] does not occur in [s]. *)
Fixpoint free (sep : ascii) (s : string) : Prop :=
  match s with
  | EmptyString => True
  | String c s' => Ascii.eqb c sep = false /\ free sep s'
  end.

(** The field the script writes for an index. *)
Definition field (i : Z) : string := (" " ++ str_int i)%string.

(** [in_range r t]: every index of the tuple is in [{0, ..., r-1}]. *)
Definition in_range (r : Z) (t : list Z) : Prop :=
  Forall (fun i => 0 <= i < r) t.

Module Odometer.

(** The next tuple under base-[r] counting, rightmost coordinate
    fastest: step the rest of the tuple if it can be stepped; otherwise
    step this coordinate and reset the rest to zeros; there is no next
    tuple after the one whose coordinates are all [r - 1]. *)
Fixpoint successor (r : Z) (t : list Z) : option (list Z) :=
  match t with
  | [] => None
  | d :: t' =>
      match successor r t' with
      | Some t'' => Some (d :: t'')
      | None =>
          if d + 1 <? r then Some (d + 1 :: map (fun _ => 0) t') else None
      end
  end.

(** The number a tuple denotes in base [r], leftmost coordinate most
    significant. *)
Fixpoint value (r : Z) (t : list Z) : Z :=
  match t with
  | [] => 0
  | d :: t' => d * r ^ Z.of_nat (List.length t') + value r t'
  end.

End Odometer.

(** [adjacent R l]: every element of [l] and the one after it are
    related by [R]. *)
Fixpoint adjacent {A} (R : A -> A -> Prop) (l : list A) : Prop :=
  match l with
  | a :: (b :: _) as l' => R a b /\ adjacent R l'
  | _ => True
  end.

(** The strict lexicographic order on tuples of one length, leftmost
    coordinate most significant. *)
Fixpoint lex_lt (t u : list Z) : Prop :=
  match t, u with
  | a :: t', b :: u' => a < b \/ (a = b /\ lex_lt t' u')
  | _, _ => False
  end.

(** [lex_successor r t t']: among the tuples over [{0, ..., r-1}] of the
    length of [t], [t'] is the least one above [t]. *)
Definition lex_successor (r : Z) (t t' : list Z) : Prop :=
  List.length t' = List.length t /\ in_range r t' /\ lex_lt t t' /\
  forall u, List.length u = List.length t -> in_range r u ->
            lex_lt t u -> u = t' \/ lex_lt t' u.

(** The calls of the emitter functions in a statement list, in order:
    swizzle length and argument of each. *)
Definition invocations (ss : list stmt) : list (nat * Z) :=
  flat_map (fun s => match s with
                     | Call f r => [(swizzle_length f, r)]
                     | Print _ => []
                     end) ss.

(** The groups of a listing: the lines before each empty line, and the
    lines after the last empty line if there are any. *)
Fixpoint groups (ls : list string) : list (list string) :=
  match ls with
  | [] => []
  | l :: ls' =>
      if String.eqb l "" then [] :: groups ls'
      else match groups ls' with
           | g :: gs => (l :: g) :: gs
           | [] => [[l]]
           end
  end.

(** [below r l]: the line [l] reads back as a tuple whose indices are all
    less than [r]. *)
Definition below (r : Z) (l : string) : bool :=
  match Line.indices l with
  | Some t => forallb (fun i => i <? r) t
  | None => false
  end.

(** The number of occurrences of a character in a string. *)
Fixpoint count_char (c : ascii) (s : string) : nat :=
  match s with
  | EmptyString => 0
  | String c' s' => (if Ascii.eqb c' c then 1 else 0) + count_char c s'
  end.

(** A script that calls the given functions with the given arguments,
    printing an empty line after each call. *)
Definition batch_script (cs : list (func * Z)) : list stmt :=
  flat_map (fun c => [Call (fst c) (snd c); Print ""]) cs.

(** ** Sample runs *)

Example unit_2 : lines_of (unit_swizzels 2) = ["x, 0,"; "y, 1,"].
Proof. reflexivity. Qed.

Example generic_3_2_last :
  last (lines_of (Generic.emit 3 2)) "" = "yyy, 1, 1, 1,".
Proof. reflexivity. Qed.

Example indices_ex : Line.indices "wx, 3, 0," = Some [3; 0].
Proof. reflexivity. Qed.

Example indices_bad : Line.indices "xx,0,0," = None.
Proof. reflexivity. Qed.

Example label_ex : Line.label "wx, 3, 0," = "wx".
Proof. reflexivity. Qed.

Example vec3_2_ends :
  List.length (lines_of (vec3_swizzels 2)) = 8%nat
  /\ hd "" (lines_of (vec3_swizzels 2)) = "xxx, 0, 0, 0,"
  /\ last (lines_of (vec3_swizzels 2)) "" = "yyy, 1, 1, 1,".
Proof. repeat split. Qed.

Example vec4_4_ends :
  List.length (lines_of (vec4_swizzels 4)) = 256%nat
  /\ hd "" (lines_of (vec4_swizzels 4)) = "xxxx, 0, 0, 0, 0,"
  /\ last (lines_of (vec4_swizzels 4)) "" = "wwww, 3, 3, 3, 3,".
Proof. repeat split. Qed.

Example successor_ex : Odometer.successor 3 [0; 2; 2] = Some [1; 0; 0].
Proof. reflexivity. Qed.

(** ** What a computation writes *)

Section Writes.

Lemma writes_ret : writes (ret tt) [].
Proof. intros out. unfold ret. now rewrite app_nil_r. Qed.

Lemma writes_print s : writes (print s) [s].
Proof. intros out. reflexivity. Qed.

Lemma writes_seq m1 m2 ls1 ls2 :
  writes m1 ls1 -> writes m2 ls2 -> writes (m1 ;; m2) (ls1 ++ ls2).
Proof.
  intros H1 H2 out. unfold bind. rewrite H1, H2. now rewrite app_assoc.
Qed.

Lemma writes_format_print fmt args s :
  format fmt args = Ok s -> writes (s' <- lift (format fmt args) ;; print s') [s].
Proof. intros E out. unfold bind, lift. now rewrite E. Qed.

Lemma writes_for_each {A} (g : A -> list string) (body : A -> M unit) xs :
  (forall x, In x xs -> writes (body x) (g x)) ->
  writes (for_each xs body) (flat_map g xs).
Proof.
  induction xs as [|x xs IH]; intros H; simpl.
  - apply writes_ret.
  - apply writes_seq.
    + apply H. now left.
    + apply IH. intros y Hy. apply H. now right.
Qed.

Lemma writes_fun m ls ls' : writes m ls -> writes m ls' -> ls = ls'.
Proof.
  intros H H'. specialize (H []). specialize (H' []).
  rewrite H in H'. now inversion H'.
Qed.

Lemma writes_lines_of m ls : writes m ls -> lines_of m = ls.
Proof. intros H. unfold lines_of. now rewrite H. Qed.

Lemma writes_terminates m ls : writes m ls -> terminates_normally m.
Proof. intros H. unfold terminates_normally. now rewrite H. Qed.

End Writes.

(** ** The loop nests against the generic emitter *)

Section Nests.

Lemma chain_label (i : Z) :
  (if i =? 0 then "x"
   else if i =? 1 then "y"
   else if i =? 2 then "z"
   else if i =? 3 then "w"
   else "") = Generic.label i.
Proof.
  unfold Generic.label.
  destruct (Z.eqb_spec i 0) as [->|]; [reflexivity|].
  destruct (Z.eqb_spec i 1) as [->|]; [reflexivity|].
  destruct (Z.eqb_spec i 2) as [->|]; [reflexivity|].
  destruct (Z.eqb_spec i 3) as [->|]; [reflexivity|].
  destruct (Z.leb_spec 0 i); [|reflexivity].
  destruct (Z.ltb_spec i (Z.of_nat (List.length Generic.alphabet)));
    [|reflexivity].
  simpl in *. lia.
Qed.

Lemma map_flat_map {A B C} (f : B -> C) (g : A -> list B) xs :
  map f (flat_map g xs) = flat_map (fun x => map f (g x)) xs.
Proof.
  induction xs as [|x xs IH]; simpl; [reflexivity|].
  now rewrite map_app, IH.
Qed.

Lemma flat_map_singleton {A B} (f : A -> B) xs :
  flat_map (fun x => [f x]) xs = map f xs.
Proof. induction xs; simpl; congruence. Qed.

Lemma append_assoc (a b c : string) :
  ((a ++ b) ++ c = a ++ (b ++ c))%string.
Proof. induction a; simpl; congruence. Qed.

Lemma append_nil_r (a : string) : (a ++ "")%string = a.
Proof. induction a; simpl; congruence. Qed.

Ltac format_line :=
  unfold Generic.line;
  cbn [format map String.concat str Ascii.eqb Bool.eqb orb];
  simpl; repeat (rewrite append_assoc; simpl); reflexivity.

Lemma unit_format i :
  format "{}, {}," [VStr (Generic.label i); VInt i] = Ok (Generic.line [i]).
Proof. format_line. Qed.

Lemma vec2_format i j :
  format "{}{}, {}, {},"
         [VStr (Generic.label i); VStr (Generic.label j); VInt i; VInt j]
  = Ok (Generic.line [i; j]).
Proof. format_line. Qed.

Lemma vec3_format i j k :
  format "{}{}{}, {}, {}, {},"
         [VStr (Generic.label i); VStr (Generic.label j);
          VStr (Generic.label k); VInt i; VInt j; VInt k]
  = Ok (Generic.line [i; j; k]).
Proof. format_line. Qed.

Lemma vec4_format i j k l :
  format "{}{}{}{}, {}, {}, {}, {},"
         [VStr (Generic.label i); VStr (Generic.label j);
          VStr (Generic.label k); VStr (Generic.label l);
          VInt i; VInt j; VInt k; VInt l]
  = Ok (Generic.line [i; j; k; l]).
Proof. format_line. Qed.

Lemma unit_swizzels_writes r :
  writes (unit_swizzels r) (map Generic.line (Generic.tuples 1 r)).
Proof.
  unfold unit_swizzels. cbn [Generic.tuples].
  rewrite map_flat_map. apply writes_for_each. intros i _.
  cbv zeta. rewrite chain_label.
  apply writes_format_print, unit_format.
Qed.

Lemma vec2_swizzels_writes r :
  writes (vec2_swizzels r) (map Generic.line (Generic.tuples 2 r)).
Proof.
  unfold vec2_swizzels. cbn [Generic.tuples].
  rewrite map_flat_map. apply writes_for_each. intros i _.
  rewrite map_map, map_flat_map. apply writes_for_each. intros j _.
  cbv zeta. rewrite !chain_label.
  apply writes_format_print, vec2_format.
Qed.

Lemma vec3_swizzels_writes r :
  writes (vec3_swizzels r) (map Generic.line (Generic.tuples 3 r)).
Proof.
  unfold vec3_swizzels. cbn [Generic.tuples].
  rewrite map_flat_map. apply writes_for_each. intros i _.
  rewrite map_map, map_flat_map. apply writes_for_each. intros j _.
  rewrite !map_map, map_flat_map. apply writes_for_each. intros k _.
  cbv zeta. rewrite !chain_label.
  apply writes_format_print, vec3_format.
Qed.

Lemma vec4_swizzels_writes r :
  writes (vec4_swizzels r) (map Generic.line (Generic.tuples 4 r)).
Proof.
  unfold vec4_swizzels. cbn [Generic.tuples].
  rewrite map_flat_map. apply writes_for_each. intros i _.
  rewrite map_map, map_flat_map. apply writes_for_each. intros j _.
  rewrite !map_map, map_flat_map. apply writes_for_each. intros k _.
  rewrite !map_map, map_flat_map. apply writes_for_each. intros l _.
  cbv zeta. rewrite !chain_label.
  apply writes_format_print, vec4_format.
Qed.

Lemma generic_emit_writes k r :
  writes (Generic.emit k r) (map Generic.line (Generic.tuples k r)).
Proof.
  unfold Generic.emit. rewrite <- flat_map_singleton.
  apply writes_for_each. intros t _. apply writes_print.
Qed.

End Nests.

(** ** Reading the lines of the generic emitter back *)

Section Reading.

Lemma free_app sep a b : free sep a -> free sep b -> free sep (a ++ b).
Proof. induction a; simpl; intuition. Qed.

Lemma split_on_nonempty sep s : Line.split_on sep s <> [].
Proof.
  destruct s as [|c s]; simpl; [discriminate|].
  destruct (Ascii.eqb c sep); [discriminate|].
  destruct (Line.split_on sep s); discriminate.
Qed.

Lemma split_on_free sep a : free sep a -> Line.split_on sep a = [a].
Proof.
  induction a as [|c a IH]; simpl; [reflexivity|].
  intros [-> Ha]. now rewrite IH.
Qed.

Lemma split_on_app sep a b :
  free sep a ->
  Line.split_on sep (a ++ String sep b) = a :: Line.split_on sep b.
Proof.
  induction a as [|c a IH]; simpl.
  - intros _. now rewrite Ascii.eqb_refl.
  - intros [-> Ha]. now rewrite IH.
Qed.

Lemma free_uint d : free "," (NilEmpty.string_of_uint d).
Proof. induction d; simpl; auto. Qed.

Lemma free_str_int i : free "," (str_int i).
Proof.
  unfold str_int, NilZero.string_of_int, NilZero.string_of_uint.
  destruct (Z.to_int i) as [d|d]; destruct d; simpl; auto using free_uint.
Qed.

Lemma free_label i : free "," (Generic.label i).
Proof.
  rewrite <- chain_label.
  repeat (match goal with |- context [?a =? ?b] => destruct (a =? b) end);
    simpl; auto.
Qed.

Lemma concat_nil_cons (x : string) xs :
  String.concat "" (x :: xs) = (x ++ String.concat "" xs)%string.
Proof. destruct xs; simpl; [now rewrite append_nil_r | reflexivity]. Qed.

Lemma free_concat sep xs :
  Forall (free sep) xs -> free sep (String.concat "" xs).
Proof.
  induction 1 as [|x xs Hx _ IH]; [exact I|].
  rewrite concat_nil_cons. now apply free_app.
Qed.

Lemma free_labels t : free "," (String.concat "" (map Generic.label t)).
Proof.
  apply free_concat, Forall_forall. intros s Hs.
  apply in_map_iff in Hs as [i [<- _]]. apply free_label.
Qed.

Lemma split_on_line_tail a t :
  free "," a ->
  Line.split_on ","
    (a ++ String.concat "" (map (fun i => ", " ++ str_int i) t) ++ ",")%string
  = a :: map field t ++ [""].
Proof.
  revert a. induction t as [|i t IH]; intros a Ha.
  - cbn [map String.concat]. change ("" ++ ",")%string with ",".
    now rewrite split_on_app.
  - cbn [map]. rewrite concat_nil_cons.
    change (", " ++ str_int i)%string with (String "," (field i)).
    cbn [append]. rewrite split_on_app by assumption.
    f_equal. rewrite append_assoc. rewrite IH; [reflexivity|].
    apply free_app; [now split | apply free_str_int].
Qed.

Lemma split_on_line t :
  Line.split_on "," (Generic.line t)
  = String.concat "" (map Generic.label t) :: map field t ++ [""].
Proof. unfold Generic.line. apply split_on_line_tail, free_labels. Qed.

Lemma to_int_proper i : Z.to_int i <> Decimal.Pos Decimal.Nil
                        /\ Z.to_int i <> Decimal.Neg Decimal.Nil.
Proof.
  destruct i as [|p|p]; simpl; split; try discriminate;
    intros [= H]; now apply Unsigned.to_uint_nonnil in H.
Qed.

Lemma index_of_field_field i : Line.index_of_field (field i) = Some i.
Proof.
  unfold field, str_int. cbn [append Line.index_of_field].
  destruct (to_int_proper i) as [Hp Hn].
  rewrite NilZero.isi by assumption. simpl. now rewrite DecimalZ.of_to.
Qed.

Lemma all_some_map_Some {A} (xs : list A) :
  Line.all_some (map Some xs) = Some xs.
Proof. induction xs as [|x xs IH]; simpl; [reflexivity|]. now rewrite IH. Qed.

Lemma label_line t :
  Line.label (Generic.line t) = String.concat "" (map Generic.label t).
Proof. unfold Line.label. now rewrite split_on_line. Qed.

Lemma indices_line t : Line.indices (Generic.line t) = Some t.
Proof.
  unfold Line.indices. rewrite split_on_line. cbn [tl].
  rewrite last_last, removelast_last, map_map.
  rewrite (map_ext _ Some) by apply index_of_field_field.
  apply all_some_map_Some.
Qed.

End Reading.

(** ** The tuples of a batch: count, membership, distinctness *)

Section Tuples.

Lemma range_In x lo hi : In x (range lo hi) <-> lo <= x < hi.
Proof.
  unfold range. rewrite in_map_iff. split.
  - intros [n [<- Hn]]. apply in_seq in Hn. lia.
  - intros H. exists (Z.to_nat (x - lo)). split; [lia|].
    apply in_seq. lia.
Qed.

Lemma range_length lo hi : List.length (range lo hi) = Z.to_nat (hi - lo).
Proof. unfold range. now rewrite length_map, length_seq. Qed.

Lemma NoDup_map_inj {A B} (f : A -> B) xs :
  (forall a b, f a = f b -> a = b) -> NoDup xs -> NoDup (map f xs).
Proof.
  intros Hf. induction 1 as [|x xs Hx _ IH]; simpl; constructor; [|exact IH].
  intros H. apply in_map_iff in H as [y [E Hy]].
  apply Hf in E. now subst.
Qed.

Lemma range_NoDup lo hi : NoDup (range lo hi).
Proof.
  unfold range. apply NoDup_map_inj; [|apply seq_NoDup].
  intros a b. lia.
Qed.

Lemma flat_map_length_const {A B} (f : A -> list B) n xs :
  (forall x, In x xs -> List.length (f x) = n) ->
  List.length (flat_map f xs) = (List.length xs * n)%nat.
Proof.
  induction xs as [|x xs IH]; intros H; simpl; [reflexivity|].
  rewrite length_app, H, IH; auto with datatypes.
Qed.

Lemma tuples_length k r :
  List.length (Generic.tuples k r) = (Z.to_nat r ^ k)%nat.
Proof.
  induction k as [|k IH]; [reflexivity|].
  cbn [Generic.tuples Nat.pow].
  rewrite (flat_map_length_const _ (Z.to_nat r ^ k)%nat).
  - rewrite range_length. f_equal. lia.
  - intros i _. now rewrite length_map.
Qed.

Lemma tuples_length_Z k r :
  0 <= r -> Z.of_nat (List.length (Generic.tuples k r)) = r ^ Z.of_nat k.
Proof.
  intros Hr. rewrite tuples_length, Nat2Z.inj_pow. f_equal. lia.
Qed.

Lemma tuples_In k r t :
  In t (Generic.tuples k r) <-> List.length t = k /\ in_range r t.
Proof.
  unfold in_range. revert t. induction k as [|k IH]; intros t; simpl.
  - split.
    + intros [<-|[]]. now split.
    + intros [H _]. left. now destruct t.
  - rewrite in_flat_map. split.
    + intros [i [Hi Ht]]. apply in_map_iff in Ht as [t' [<- Ht']].
      apply IH in Ht' as [Hl Hf]. apply range_In in Hi.
      simpl. split; [congruence|]. now constructor.
    + intros [Hl Hf]. destruct t as [|i t']; [discriminate|].
      inversion Hf; subst. exists i. split; [now apply range_In|].
      apply in_map, IH. split; [now inversion Hl | assumption].
Qed.

Lemma NoDup_flat_map {A B} (f : A -> list B) xs :
  NoDup xs ->
  (forall x, In x xs -> NoDup (f x)) ->
  (forall x y b, In x xs -> In y xs -> In b (f x) -> In b (f y) -> x = y) ->
  NoDup (flat_map f xs).
Proof.
  induction 1 as [|x xs Hx Hxs IH]; intros Hf Hd; simpl; [constructor|].
  apply NoDup_app.
  - apply Hf. now left.
  - apply IH.
    + intros y Hy. apply Hf. now right.
    + intros y z b Hy Hz. apply Hd; now right.
  - intros b Hb Hb'. apply in_flat_map in Hb' as [y [Hy Hb']].
    assert (x = y) by (apply (Hd x y b); auto with datatypes).
    subst. contradiction.
Qed.

Lemma tuples_NoDup k r : NoDup (Generic.tuples k r).
Proof.
  induction k as [|k IH]; simpl.
  - constructor; [intros []|constructor].
  - apply NoDup_flat_map.
    + apply range_NoDup.
    + intros i _. apply NoDup_map_inj; [|assumption].
      intros a b. congruence.
    + intros i j t _ _ Hi Hj.
      apply in_map_iff in Hi as [a [<- _]].
      apply in_map_iff in Hj as [b [E _]]. congruence.
Qed.

End Tuples.

(** ** The order of the tuples of a batch *)

Section Order.

Import Odometer.

Lemma successor_length r t t' :
  successor r t = Some t' -> List.length t' = List.length t.
Proof.
  revert t'. induction t as [|d t IH]; intros t'; simpl; [discriminate|].
  destruct (successor r t) as [t''|].
  - intros [= <-]. simpl. now rewrite (IH t'').
  - destruct (d + 1 <? r); [|discriminate].
    intros [= <-]. simpl. now rewrite length_map.
Qed.

Lemma value_zeros r (t : list Z) : value r (map (fun _ => 0) t) = 0.
Proof. induction t as [|d t IH]; simpl; [reflexivity|]. now rewrite IH. Qed.

Lemma successor_None_value r t :
  in_range r t -> successor r t = None ->
  value r t = r ^ Z.of_nat (List.length t) - 1.
Proof.
  induction 1 as [|d t Hd Ht IH]; cbn [successor value List.length];
    [reflexivity|].
  destruct (successor r t) as [t''|]; [discriminate|].
  destruct (Z.ltb_spec (d + 1) r); [discriminate|]. intros _.
  rewrite IH by reflexivity.
  replace d with (r - 1) by lia.
  rewrite Nat2Z.inj_succ, Z.pow_succ_r by lia. ring.
Qed.

Lemma successor_value r t t' :
  in_range r t -> successor r t = Some t' -> value r t' = value r t + 1.
Proof.
  intros Ht. revert t'.
  induction Ht as [|d t Hd Ht IH]; intros t'; cbn [successor];
    [discriminate|].
  destruct (successor r t) as [t''|] eqn:E.
  - intros [= <-]. cbn [value]. rewrite (successor_length _ _ _ E).
    rewrite (IH t'') by reflexivity. ring.
  - destruct (d + 1 <? r); [|discriminate].
    intros [= <-]. cbn [value]. rewrite length_map, value_zeros.
    rewrite (successor_None_value r t) by assumption. ring.
Qed.

Lemma successor_in_range r t t' :
  in_range r t -> successor r t = Some t' -> in_range r t'.
Proof.
  unfold in_range. intros Ht. revert t'.
  induction Ht as [|d t Hd Ht IH]; intros t'; simpl; [discriminate|].
  destruct (successor r t) as [t''|] eqn:E.
  - intros [= <-]. constructor; [assumption | now apply IH].
  - destruct (Z.ltb_spec (d + 1) r); [|discriminate].
    intros [= <-]. constructor; [lia|].
    apply Forall_forall. intros x Hx.
    apply in_map_iff in Hx as [_ [<- _]]. lia.
Qed.

Lemma successor_top r k : successor r (repeat (r - 1) k) = None.
Proof.
  induction k as [|k IH]; simpl; [reflexivity|].
  rewrite IH. destruct (Z.ltb_spec (r - 1 + 1) r); [lia|reflexivity].
Qed.

Lemma adjacent_app {A} (R : A -> A -> Prop) l1 l2 d :
  adjacent R l1 -> adjacent R l2 ->
  (l1 <> [] -> l2 <> [] -> R (last l1 d) (hd d l2)) ->
  adjacent R (l1 ++ l2).
Proof.
  induction l1 as [|a [|b l1] IH]; intros H1 H2 H; [exact H2| |].
  - destruct l2 as [|b l2]; [exact I|].
    split; [|exact H2]. apply H; discriminate.
  - destruct H1 as [Hab H1]. split; [exact Hab|].
    apply IH; [exact H1|exact H2|].
    intros _ Hl2. apply H; [discriminate|exact Hl2].
Qed.

Lemma adjacent_map {A B} (R : B -> B -> Prop) (f : A -> B) l :
  adjacent (fun a b => R (f a) (f b)) l -> adjacent R (map f l).
Proof.
  induction l as [|a [|b l] IH]; simpl; auto.
  intros [H1 H2]. split; [exact H1|]. apply IH, H2.
Qed.

Lemma adjacent_impl {A} (R Q : A -> A -> Prop) l :
  (forall a b, R a b -> Q a b) -> adjacent R l -> adjacent Q l.
Proof.
  intros H. induction l as [|a [|b l] IH]; simpl; auto.
  intros [H1 H2]. split; [apply H, H1 | apply IH, H2].
Qed.

Lemma adjacent_flat_map {A B} (R : B -> B -> Prop) (Q : A -> A -> Prop)
      (f : A -> list B) xs d :
  (forall x, adjacent R (f x)) ->
  (forall x, f x <> []) ->
  adjacent Q xs ->
  (forall x y, Q x y -> R (last (f x) d) (hd d (f y))) ->
  adjacent R (flat_map f xs).
Proof.
  intros Hf Hne HQ Hb. induction xs as [|x xs IH]; [exact I|].
  cbn [flat_map]. apply (adjacent_app R _ _ d).
  - apply Hf.
  - apply IH. destruct xs; [exact I|apply HQ].
  - intros _ Hxs. destruct xs as [|y ys]; [now elim Hxs|].
    cbn [flat_map]. destruct HQ as [Hxy _].
    specialize (Hb x y Hxy). specialize (Hne y).
    destruct (f y); [contradiction|exact Hb].
Qed.

Lemma adjacent_nth {A} (R : A -> A -> Prop) l n a b :
  adjacent R l ->
  nth_error l n = Some a -> nth_error l (S n) = Some b -> R a b.
Proof.
  revert n. induction l as [|x [|y l] IH]; intros n H Ha Hb.
  - destruct n; discriminate.
  - destruct n as [|[|n]]; discriminate.
  - destruct H as [Hxy H]. destruct n as [|n].
    + simpl in Ha, Hb. congruence.
    + apply (IH n); assumption.
Qed.

Lemma adjacent_seq s n :
  adjacent (fun a b => b = S a /\ (s <= a)%nat /\ (b < s + n)%nat) (seq s n).
Proof.
  revert s. induction n as [|[|n] IH]; intros s; [exact I..|].
  change (seq s (S (S n))) with (s :: seq (S s) (S n)).
  split; [lia|].
  eapply adjacent_impl; [|apply (IH (S s))].
  cbv beta. intros a b. lia.
Qed.

Lemma adjacent_range lo hi :
  adjacent (fun a b => lo <= a /\ b = a + 1 /\ b < hi) (range lo hi).
Proof.
  unfold range. apply adjacent_map.
  eapply adjacent_impl; [|apply (adjacent_seq 0)].
  cbv beta. intros a b. lia.
Qed.

Lemma hd_app_l {A} (l1 l2 : list A) d : l1 <> [] -> hd d (l1 ++ l2) = hd d l1.
Proof. destruct l1; [contradiction|reflexivity]. Qed.

Lemma last_app_r {A} (l1 l2 : list A) d :
  l2 <> [] -> last (l1 ++ l2) d = last l2 d.
Proof.
  intros H. induction l1 as [|a l1 IH]; [reflexivity|].
  cbn [app]. rewrite <- IH. simpl.
  destruct (l1 ++ l2) eqn:E; [|reflexivity].
  apply app_eq_nil in E as [_ ->]. contradiction.
Qed.

Lemma hd_map_cons {A} (i : A) (T : list (list A)) :
  T <> [] -> hd [] (map (cons i) T) = i :: hd [] T.
Proof. destruct T; [contradiction|reflexivity]. Qed.

Lemma last_map_cons {A} (i : A) (T : list (list A)) :
  T <> [] -> last (map (cons i) T) [] = i :: last T [].
Proof.
  induction T as [|t [|t' T] IH]; [contradiction|reflexivity|].
  intros _. change (last (map (cons i) (t' :: T)) [] = i :: last (t' :: T) []).
  apply IH. discriminate.
Qed.

Lemma range_first lo hi : lo < hi -> exists xs, range lo hi = lo :: xs.
Proof.
  intros H. unfold range.
  destruct (Z.to_nat (hi - lo)) as [|n] eqn:E; [lia|].
  simpl. rewrite Z.add_0_r. eauto.
Qed.

Lemma range_final lo hi : lo < hi -> exists xs, range lo hi = xs ++ [hi - 1].
Proof.
  intros H. unfold range.
  destruct (Z.to_nat (hi - lo)) as [|n] eqn:E; [lia|].
  rewrite seq_S, map_app. simpl.
  replace (lo + Z.of_nat n) with (hi - 1) by lia. eauto.
Qed.

Lemma tuples_nonempty k r : 0 < r -> Generic.tuples k r <> [].
Proof.
  intros Hr. induction k as [|k IH]; [discriminate|].
  cbn [Generic.tuples]. destruct (range_first 0 r Hr) as [xs ->].
  cbn [flat_map]. destruct (Generic.tuples k r); [contradiction|discriminate].
Qed.

Lemma tuples_hd k r : 0 < r -> hd [] (Generic.tuples k r) = repeat 0 k.
Proof.
  intros Hr. induction k as [|k IH]; [reflexivity|].
  cbn [Generic.tuples repeat]. destruct (range_first 0 r Hr) as [xs ->].
  cbn [flat_map]. pose proof (tuples_nonempty k r Hr) as Hne.
  rewrite hd_app_l, hd_map_cons, IH; trivial.
  destruct (Generic.tuples k r); [contradiction|discriminate].
Qed.

Lemma tuples_last k r :
  0 < r -> last (Generic.tuples k r) [] = repeat (r - 1) k.
Proof.
  intros Hr. induction k as [|k IH]; [reflexivity|].
  cbn [Generic.tuples repeat]. destruct (range_final 0 r Hr) as [xs ->].
  rewrite flat_map_app. cbn [flat_map]. rewrite app_nil_r.
  pose proof (tuples_nonempty k r Hr) as Hne.
  rewrite last_app_r, last_map_cons, IH; trivial.
  destruct (Generic.tuples k r); [contradiction|discriminate].
Qed.

Lemma tuples_adjacent k r :
  adjacent (fun t t' => successor r t = Some t') (Generic.tuples k r).
Proof.
  destruct (Z.le_gt_cases r 0) as [Hr|Hr].
  { destruct k; [exact I|]. cbn [Generic.tuples]. unfold range.
    replace (Z.to_nat (r - 0)) with 0%nat by lia. exact I. }
  induction k as [|k IH]; [exact I|].
  cbn [Generic.tuples].
  pose proof (tuples_nonempty k r Hr) as Hne.
  apply adjacent_flat_map
    with (d := []) (Q := fun a b => 0 <= a /\ b = a + 1 /\ b < r).
  - intros i. apply adjacent_map.
    eapply adjacent_impl; [|apply IH].
    cbv beta. intros a b E. cbn [successor]. now rewrite E.
  - intros i. destruct (Generic.tuples k r); [contradiction|discriminate].
  - apply adjacent_range.
  - intros x y (Hx & -> & Hy).
    rewrite last_map_cons, hd_map_cons, tuples_last, tuples_hd by assumption.
    cbn [successor]. rewrite successor_top.
    destruct (Z.ltb_spec (x + 1) r); [|lia].
    now rewrite map_repeat.
Qed.

End Order.

(** ** The label of a tuple *)

Section Labels.

Lemma label_letter i :
  0 <= i < 4 ->
  exists c, Generic.label i = String c ""
            /\ nth_error Generic.alphabet (Z.to_nat i) = Some (String c "").
Proof.
  intros H.
  assert (i = 0 \/ i = 1 \/ i = 2 \/ i = 3) as E by lia.
  destruct E as [E|[E|[E|E]]]; subst i; eexists; split; reflexivity.
Qed.

Lemma label_beyond i : 4 <= i -> Generic.label i = "".
Proof.
  intros H. unfold Generic.label.
  destruct (Z.ltb_spec i (Z.of_nat (List.length Generic.alphabet)));
    [simpl in *; lia|].
  now rewrite andb_false_r.
Qed.

Lemma labels_length t :
  in_range 4 t ->
  String.length (String.concat "" (map Generic.label t)) = List.length t.
Proof.
  induction 1 as [|i t Hi _ IH]; [reflexivity|].
  cbn [map]. rewrite concat_nil_cons.
  destruct (label_letter i Hi) as [c [-> _]]. simpl. now rewrite IH.
Qed.

Lemma labels_get t m i :
  in_range 4 t -> nth_error t m = Some i ->
  exists c, String.get m (String.concat "" (map Generic.label t)) = Some c
            /\ nth_error Generic.alphabet (Z.to_nat i) = Some (String c "").
Proof.
  intros Ht. revert m. induction Ht as [|j t Hj _ IH]; intros m Hm.
  - destruct m; discriminate.
  - cbn [map]. rewrite concat_nil_cons.
    destruct (label_letter j Hj) as [c [E Hc]]. rewrite E.
    destruct m as [|m].
    + injection Hm as <-. exists c. now split.
    + apply (IH m Hm).
Qed.

Lemma labels_length_below r t :
  in_range r t ->
  String.length (String.concat "" (map Generic.label t))
  = List.length (filter (fun i => i <? 4) t).
Proof.
  induction 1 as [|i t Hi _ IH]; [reflexivity|].
  cbn [map filter]. rewrite concat_nil_cons.
  destruct (Z.ltb_spec i 4).
  - destruct (label_letter i) as [c [-> _]]; [lia|]. simpl. now rewrite IH.
  - rewrite label_beyond by assumption. simpl. exact IH.
Qed.

End Labels.

(** ** The four functions, by swizzle length *)

Section Emit.

Lemma emit_writes k r :
  (1 <= k <= 4)%nat ->
  writes (emit k r) (map Generic.line (Generic.tuples k r)).
Proof.
  intros Hk.
  destruct k as [|[|[|[|[|k]]]]]; try lia; cbn [emit].
  - apply unit_swizzels_writes.
  - apply vec2_swizzels_writes.
  - apply vec3_swizzels_writes.
  - apply vec4_swizzels_writes.
Qed.

Lemma call_writes f r :
  writes (call f r)
         (map Generic.line (Generic.tuples (swizzle_length f) r)).
Proof.
  destruct f; cbn [call swizzle_length].
  - apply unit_swizzels_writes.
  - apply vec2_swizzels_writes.
  - apply vec3_swizzels_writes.
  - apply vec4_swizzels_writes.
Qed.

Lemma indices_lines ts :
  map Line.indices (map Generic.line ts) = map Some ts.
Proof. rewrite map_map. apply map_ext, indices_line. Qed.

Lemma in_range_mono r r' t : r <= r' -> in_range r t -> in_range r' t.
Proof.
  intros Hr. apply Forall_impl. intros i. lia.
Qed.

End Emit.

(** ** The odometer step is the lexicographic successor *)

Section Lex.

Import Odometer.

Lemma value_bound r t :
  in_range r t -> 0 <= value r t < r ^ Z.of_nat (List.length t).
Proof.
  induction 1 as [|d t Hd _ IH]; cbn [value List.length]; [simpl; lia|].
  rewrite Nat2Z.inj_succ, Z.pow_succ_r by lia.
  set (P := r ^ Z.of_nat (List.length t)) in *. nia.
Qed.

Lemma lex_lt_value r t u :
  List.length t = List.length u -> in_range r t -> in_range r u ->
  (lex_lt t u <-> value r t < value r u).
Proof.
  intros Hl Ht. revert u Hl.
  induction Ht as [|a t Ha Ht IH]; intros [|b u] Hl Hu; try discriminate.
  - simpl. lia.
  - inversion Hu as [|? ? Hb Hu']; subst. injection Hl as Hl.
    cbn [lex_lt value]. rewrite <- Hl.
    pose proof (value_bound r t Ht) as Bt.
    pose proof (value_bound r u Hu') as Bu. rewrite <- Hl in Bu.
    specialize (IH u Hl Hu').
    set (P := r ^ Z.of_nat (List.length t)) in *.
    split.
    + intros [H|[-> H]]; [nia|]. apply IH in H. lia.
    + intros H. destruct (Z.lt_trichotomy a b) as [L|[E|G]].
      * now left.
      * right. split; [exact E|]. apply IH. subst. lia.
      * nia.
Qed.

Lemma value_inj r t u :
  List.length t = List.length u -> in_range r t -> in_range r u ->
  value r t = value r u -> t = u.
Proof.
  intros Hl Ht. revert u Hl.
  induction Ht as [|a t Ha Ht IH]; intros [|b u] Hl Hu; try discriminate.
  - reflexivity.
  - inversion Hu as [|? ? Hb Hu']; subst. injection Hl as Hl.
    cbn [value]. rewrite <- Hl.
    pose proof (value_bound r t Ht) as Bt.
    pose proof (value_bound r u Hu') as Bu. rewrite <- Hl in Bu.
    set (P := r ^ Z.of_nat (List.length t)) in *.
    intros H. assert (a = b) by nia. subst.
    f_equal. apply IH; trivial. lia.
Qed.

Lemma successor_lex r t t' :
  in_range r t -> successor r t = Some t' -> lex_successor r t t'.
Proof.
  intros Ht E.
  pose proof (successor_length r t t' E) as Hl.
  pose proof (successor_in_range r t t' Ht E) as Ht'.
  pose proof (successor_value r t t' Ht E) as Hv.
  repeat split; trivial.
  - apply (lex_lt_value r); auto. lia.
  - intros u Hu Hr Hlt.
    apply (lex_lt_value r) in Hlt; auto.
    destruct (Z.eq_dec (value r u) (value r t')) as [Eq|Ne].
    + left. apply (value_inj r); auto. congruence.
    + right. apply (lex_lt_value r); auto; [congruence|lia].
Qed.

End Lex.

(** ** The driving sequence *)

(** C1, as the spec states it, fails: the script does not invoke the
    emitter nine times. *)
Lemma script_not_nine_invocations :
  List.length (invocations script) <> 9%nat.
Proof. vm_compute. discriminate. Qed.

(** C1 (amended): the script invokes the emitter twelve times, for the
    swizzle lengths 1, 2, 3, 4 in that order and each length for
    r = 2, 3, 4 in that order; every call is directly followed by the
    printing of an empty line; and the run ends normally, its output
    being the twelve batches in that order, each followed by one empty
    line. *)
Theorem script_twelve_batches :
  invocations script
  = [ (1%nat, 2); (1%nat, 3); (1%nat, 4);
      (2%nat, 2); (2%nat, 3); (2%nat, 4);
      (3%nat, 2); (3%nat, 3); (3%nat, 4);
      (4%nat, 2); (4%nat, 3); (4%nat, 4) ]
  /\ List.length (invocations script) = 12%nat
  /\ (forall n f r, nth_error script n = Some (Call f r) ->
                    nth_error script (S n) = Some (Print ""))
  /\ terminates_normally main
  /\ lines_of main
     = flat_map (fun kr => lines_of (emit (fst kr) (snd kr)) ++ [""])
                (invocations script).
Proof.
  split; [reflexivity|]. split; [reflexivity|]. split.
  - intros n f r.
    do 24 (destruct n as [|n]; [simpl; intros H; try discriminate H;
                                 reflexivity|]).
    destruct n; discriminate.
  - split; vm_compute; reflexivity.
Qed.

(** ** Concrete batches *)

(** C2, as the spec states it, fails: the lines of [emit(k=2, r=2)] are
    not the texts without spaces. *)
Lemma emit_2_2_not_unspaced :
  lines_of (emit 2 2) <> ["xx,0,0,"; "xy,0,1,"; "yx,1,0,"; "yy,1,1,"].
Proof. vm_compute. discriminate. Qed.

(** C2 (amended): the batch [emit(k=2, r=2)] ends normally and produces
    exactly four lines, in this order: [xx, 0, 0,] then [xy, 0, 1,] then
    [yx, 1, 0,] then [yy, 1, 1,], with one space after each comma but the
    last. *)
Theorem emit_2_2_lines :
  terminates_normally (emit 2 2)
  /\ lines_of (emit 2 2)
     = ["xx, 0, 0,"; "xy, 0, 1,"; "yx, 1, 0,"; "yy, 1, 1,"].
Proof. split; reflexivity. Qed.

(** C3: the batch [emit(k=1, r=2)] ends normally and produces exactly two
    lines, [x, 0,] then [y, 1,]. *)
Theorem emit_1_2_lines :
  terminates_normally (emit 1 2)
  /\ lines_of (emit 1 2) = ["x, 0,"; "y, 1,"].
Proof. split; reflexivity. Qed.

(** ** The batches in general *)

(** C4: for k in 1..4 and r in 2..4, the batch has exactly r^k lines;
    every line reads back as an index tuple; these tuples are pairwise
    distinct; and they are exactly the tuples of length k over
    [{0, ..., r-1}]. *)
Theorem emit_cartesian_product (k : nat) (r : Z) :
  (1 <= k <= 4)%nat -> 2 <= r <= 4 ->
  Z.of_nat (List.length (lines_of (emit k r))) = r ^ Z.of_nat k
  /\ exists ts,
       map Line.indices (lines_of (emit k r)) = map Some ts
       /\ NoDup ts
       /\ forall t, In t ts <-> (List.length t = k /\ in_range r t).
Proof.
  intros Hk Hr.
  rewrite (writes_lines_of _ _ (emit_writes k r Hk)). split.
  - rewrite length_map. apply tuples_length_Z. lia.
  - exists (Generic.tuples k r). split; [apply indices_lines|].
    split; [apply tuples_NoDup|apply tuples_In].
Qed.

Lemma emit_cartesian_product_witness :
  Z.of_nat (List.length (lines_of (emit 3 4))) = 4 ^ Z.of_nat 3
  /\ exists ts,
       map Line.indices (lines_of (emit 3 4)) = map Some ts
       /\ NoDup ts
       /\ forall t, In t ts <-> (List.length t = 3%nat /\ in_range 4 t).
Proof. apply (emit_cartesian_product 3 4); lia. Defined.

(** C5: for k in 1..4 and r in 2..4, any line of the batch and the line
    after it read back as tuples t and t' such that t' is the next tuple
    after t under base-r counting with the rightmost coordinate fastest,
    which is the lexicographic successor of t among the tuples over
    [{0, ..., r-1}], and denotes the number after the one t denotes. *)
Theorem emit_lexicographic_order (k : nat) (r : Z) (n : nat) (l l' : string) :
  (1 <= k <= 4)%nat -> 2 <= r <= 4 ->
  nth_error (lines_of (emit k r)) n = Some l ->
  nth_error (lines_of (emit k r)) (S n) = Some l' ->
  exists t t',
    Line.indices l = Some t /\ Line.indices l' = Some t'
    /\ Odometer.successor r t = Some t'
    /\ lex_successor r t t'
    /\ Odometer.value r t' = Odometer.value r t + 1.
Proof.
  intros Hk Hr.
  rewrite (writes_lines_of _ _ (emit_writes k r Hk)).
  rewrite !nth_error_map.
  destruct (nth_error (Generic.tuples k r) n) as [t|] eqn:Et;
    [|discriminate].
  destruct (nth_error (Generic.tuples k r) (S n)) as [t'|] eqn:Et';
    [|discriminate].
  cbn [option_map]. intros [= <-] [= <-].
  exists t, t'. rewrite !indices_line.
  pose proof (adjacent_nth _ _ _ _ _ (tuples_adjacent k r) Et Et') as E.
  assert (in_range r t) as Ht
      by (apply (tuples_In k r t), (nth_error_In _ _ Et)).
  cbv beta in E.
  split; [reflexivity|]. split; [reflexivity|]. split; [exact E|].
  split; [now apply successor_lex | now apply successor_value].
Qed.

Lemma emit_lexicographic_order_witness :
  exists t t',
    Line.indices "xy, 0, 1," = Some t /\ Line.indices "yx, 1, 0," = Some t'
    /\ Odometer.successor 2 t = Some t'
    /\ lex_successor 2 t t'
    /\ Odometer.value 2 t' = Odometer.value 2 t + 1.
Proof.
  apply (emit_lexicographic_order 2 2 1 "xy, 0, 1," "yx, 1, 0,");
    [lia | lia | reflexivity | reflexivity].
Defined.

(** C6: for k in 1..4 and r in 2..4, on every line of the batch the label
    string has exactly k characters, and for every m below k its m-th
    character is the Component Alphabet entry at the line's m-th
    index. *)
Theorem emit_label_correct (k : nat) (r : Z) (l : string) :
  (1 <= k <= 4)%nat -> 2 <= r <= 4 ->
  In l (lines_of (emit k r)) ->
  exists t,
    Line.indices l = Some t
    /\ List.length t = k
    /\ String.length (Line.label l) = k
    /\ forall m, (m < k)%nat ->
         exists i c,
           nth_error t m = Some i
           /\ String.get m (Line.label l) = Some c
           /\ nth_error Generic.alphabet (Z.to_nat i) = Some (String c "").
Proof.
  intros Hk Hr.
  rewrite (writes_lines_of _ _ (emit_writes k r Hk)).
  intros Hl. apply in_map_iff in Hl as [t [<- Ht]].
  apply tuples_In in Ht as [Hlen Ht].
  apply (in_range_mono r 4) in Ht; [|lia].
  exists t. rewrite indices_line, label_line, labels_length by assumption.
  repeat split; trivial.
  intros m Hm. destruct (nth_error t m) as [i|] eqn:Ei.
  - destruct (labels_get t m i Ht Ei) as [c [Hc Ha]]. now exists i, c.
  - apply nth_error_None in Ei. lia.
Qed.

Lemma emit_label_correct_witness :
  exists t,
    Line.indices "zxw, 2, 0, 3," = Some t
    /\ List.length t = 3%nat
    /\ String.length (Line.label "zxw, 2, 0, 3,") = 3%nat
    /\ forall m, (m < 3)%nat ->
         exists i c,
           nth_error t m = Some i
           /\ String.get m (Line.label "zxw, 2, 0, 3,") = Some c
           /\ nth_error Generic.alphabet (Z.to_nat i) = Some (String c "").
Proof.
  apply (emit_label_correct 3 4 "zxw, 2, 0, 3,"); [lia | lia |].
  vm_compute. do 35 right. left. reflexivity.
Defined.

(** ** Outside the stated domain *)

(** C7: for k in 1..4 and every r above 4, the batch ends without an
    exception; its lines read back as the tuples of length k over
    [{0, ..., r-1}], one line per tuple; and on every line the label
    string is the concatenation of one fragment per index, the fragment
    of an index that is 4 or more being empty (so that the label has as
    many characters as the line has indices below 4), while the tuple
    read back from the line still has every index. *)
Theorem emit_beyond_alphabet (k : nat) (r : Z) :
  (1 <= k <= 4)%nat -> 4 < r ->
  terminates_normally (emit k r)
  /\ (exists ts,
        map Line.indices (lines_of (emit k r)) = map Some ts
        /\ NoDup ts
        /\ forall t, In t ts <-> (List.length t = k /\ in_range r t))
  /\ forall l, In l (lines_of (emit k r)) ->
       exists t,
         Line.indices l = Some t
         /\ List.length t = k
         /\ Line.label l = String.concat "" (map Generic.label t)
         /\ (forall i, In i t -> 4 <= i -> Generic.label i = "")
         /\ String.length (Line.label l)
            = List.length (filter (fun i => i <? 4) t).
Proof.
  intros Hk Hr.
  pose proof (emit_writes k r Hk) as W.
  split; [exact (writes_terminates _ _ W)|].
  rewrite (writes_lines_of _ _ W). split.
  - exists (Generic.tuples k r). split; [apply indices_lines|].
    split; [apply tuples_NoDup|apply tuples_In].
  - intros l Hl. apply in_map_iff in Hl as [t [<- Ht]].
    apply tuples_In in Ht as [Hlen Ht].
    exists t. rewrite indices_line, label_line.
    split; [reflexivity|]. split; [exact Hlen|]. split; [reflexivity|].
    split; [intros i _; apply label_beyond|].
    now apply (labels_length_below r).
Qed.

Lemma emit_beyond_alphabet_witness :
  terminates_normally (emit 2 6)
  /\ (exists ts,
        map Line.indices (lines_of (emit 2 6)) = map Some ts
        /\ NoDup ts
        /\ forall t, In t ts <-> (List.length t = 2%nat /\ in_range 6 t))
  /\ forall l, In l (lines_of (emit 2 6)) ->
       exists t,
         Line.indices l = Some t
         /\ List.length t = 2%nat
         /\ Line.label l = String.concat "" (map Generic.label t)
         /\ (forall i, In i t -> 4 <= i -> Generic.label i = "")
         /\ String.length (Line.label l)
            = List.length (filter (fun i => i <? 4) t).
Proof. apply (emit_beyond_alphabet 2 6); lia. Defined.

Example emit_2_5_beyond :
  nth_error (lines_of (emit 2 5)) 22 = Some "z, 4, 2,"
  /\ nth_error (lines_of (emit 2 5)) 24 = Some ", 4, 4,".
Proof. split; reflexivity. Qed.

(** C8: for k in 1..4 and every r, the emitter is restartable: there is
    one sequence of lines that every invocation appends to the output,
    whatever was written before; two invocations from any two states of
    the stream append the same lines in the same order, and so does a
    second invocation that directly follows a first. *)
Theorem emit_restartable (k : nat) (r : Z) (out1 out2 : stdout) :
  (1 <= k <= 4)%nat ->
  exists ls,
    emit k r out1 = (Ok tt, out1 ++ ls)
    /\ emit k r out2 = (Ok tt, out2 ++ ls)
    /\ (emit k r ;; emit k r) out1 = (Ok tt, (out1 ++ ls) ++ ls).
Proof.
  intros Hk. pose proof (emit_writes k r Hk) as W.
  exists (map Generic.line (Generic.tuples k r)).
  split; [apply W|]. split; [apply W|].
  unfold bind. now rewrite !W.
Qed.

Lemma emit_restartable_witness :
  exists ls,
    emit 2 3 [] = (Ok tt, [] ++ ls)
    /\ emit 2 3 ["x, 0,"; ""] = (Ok tt, ["x, 0,"; ""] ++ ls)
    /\ (emit 2 3 ;; emit 2 3) [] = (Ok tt, ([] ++ ls) ++ ls).
Proof. apply (emit_restartable 2 3 [] ["x, 0,"; ""]); lia. Defined.

(** C9: for k in 1..4 and every r, the generic emitter (one recursive
    Cartesian-product generator of depth k and bound r, with the one
    shared label lookup over the alphabet x, y, z, w) behaves as the
    hand-unrolled function for k: from every state of the stream both
    end in the same way and have written the same lines in the same
    order. *)
Theorem generic_emit_equivalent (k : nat) (r : Z) (out : stdout) :
  (1 <= k <= 4)%nat ->
  Generic.emit k r out = emit k r out
  /\ lines_of (Generic.emit k r) = lines_of (emit k r).
Proof.
  intros Hk. pose proof (emit_writes k r Hk) as W.
  pose proof (generic_emit_writes k r) as G.
  split; [now rewrite W, G|].
  now rewrite (writes_lines_of _ _ W), (writes_lines_of _ _ G).
Qed.

Lemma generic_emit_equivalent_witness :
  Generic.emit 4 3 [] = emit 4 3 []
  /\ lines_of (Generic.emit 4 3) = lines_of (emit 4 3).
Proof. apply (generic_emit_equivalent 4 3 []); lia. Defined.

(** C10: for every natural number r, each of the four functions ends
    without an exception and emits exactly r^k lines, k being its
    swizzle length; for r = 0 it emits no line, and for r = 1 exactly
    one. *)
Theorem swizzels_terminate_and_count (f : func) (r : Z) :
  0 <= r ->
  terminates_normally (call f r)
  /\ Z.of_nat (List.length (lines_of (call f r)))
     = r ^ Z.of_nat (swizzle_length f)
  /\ (r = 0 -> lines_of (call f r) = [])
  /\ (r = 1 -> List.length (lines_of (call f r)) = 1%nat).
Proof.
  intros Hr. pose proof (call_writes f r) as W.
  split; [exact (writes_terminates _ _ W)|].
  rewrite (writes_lines_of _ _ W), length_map.
  pose proof (tuples_length_Z (swizzle_length f) r Hr) as L.
  split; [exact L|]. split.
  - intros ->. now destruct f.
  - intros ->. rewrite Z.pow_1_l in L by lia. lia.
Qed.

Lemma swizzels_terminate_and_count_witness :
  terminates_normally (call f_vec3_swizzels 0)
  /\ Z.of_nat (List.length (lines_of (call f_vec3_swizzels 0)))
     = 0 ^ Z.of_nat (swizzle_length f_vec3_swizzels)
  /\ (0 = 0 -> lines_of (call f_vec3_swizzels 0) = [])
  /\ (0 = 1 -> List.length (lines_of (call f_vec3_swizzels 0)) = 1%nat).
Proof. apply (swizzels_terminate_and_count f_vec3_swizzels 0); lia. Defined.

Example swizzels_negative :
  lines_of (vec2_swizzels (-3)) = [].
Proof. reflexivity. Qed.

(** ** Helper lemmas for the further properties *)

Section More.

Import Odometer.

Lemma line_inj t u : Generic.line t = Generic.line u -> t = u.
Proof.
  intros E. apply (f_equal Line.indices) in E.
  rewrite !indices_line in E. congruence.
Qed.

Lemma NoDup_map_inj_in {A B} (f : A -> B) xs :
  (forall a b, In a xs -> In b xs -> f a = f b -> a = b) ->
  NoDup xs -> NoDup (map f xs).
Proof.
  intros Hf H. induction H as [|x xs Hx _ IH]; simpl; constructor.
  - intros H. apply in_map_iff in H as [y [E Hy]].
    apply Hf in E; [subst; contradiction | now right | now left].
  - apply IH. intros a b Ha Hb. apply Hf; now right.
Qed.

Lemma label_inj i j :
  0 <= i < 4 -> 0 <= j < 4 -> Generic.label i = Generic.label j -> i = j.
Proof.
  intros Hi Hj.
  assert (i = 0 \/ i = 1 \/ i = 2 \/ i = 3) as Ei by lia.
  assert (j = 0 \/ j = 1 \/ j = 2 \/ j = 3) as Ej by lia.
  destruct Ei as [Ei|[Ei|[Ei|Ei]]]; destruct Ej as [Ej|[Ej|[Ej|Ej]]];
    subst; trivial; discriminate.
Qed.

Lemma labels_inj t u :
  in_range 4 t -> in_range 4 u ->
  String.concat "" (map Generic.label t)
  = String.concat "" (map Generic.label u) ->
  t = u.
Proof.
  intros Ht. revert u.
  induction Ht as [|i t Hi _ IH]; intros u Hu.
  - destruct Hu as [|j u Hj _]; [reflexivity|].
    cbn [map]. rewrite concat_nil_cons.
    destruct (label_letter j Hj) as [c [-> _]]. discriminate.
  - destruct Hu as [|j u Hj Hu]; cbn [map]; rewrite ?concat_nil_cons.
    + destruct (label_letter i Hi) as [c [-> _]]. discriminate.
    + destruct (label_letter i Hi) as [c [Ec _]].
      destruct (label_letter j Hj) as [c' [Ec' _]].
      intros E. assert (Generic.label i = Generic.label j) as Eij.
      { rewrite Ec, Ec' in *. simpl in E. now injection E as -> _. }
      rewrite Ec, Ec' in E. simpl in E. injection E as _ E.
      f_equal; [now apply label_inj | now apply IH].
Qed.

Lemma line_not_empty t : Generic.line t <> "".
Proof.
  unfold Generic.line. rewrite <- append_assoc.
  destruct (String.concat "" (map Generic.label t)
            ++ String.concat "" (map (fun i => ", " ++ str_int i) t))%string;
    discriminate.
Qed.

Lemma groups_app b rest :
  ~ In "" b -> groups (b ++ "" :: rest) = b :: groups rest.
Proof.
  induction b as [|l b IH]; intros H; [reflexivity|].
  cbn [app groups]. destruct (String.eqb_spec l "") as [->|_].
  - elim H. now left.
  - rewrite IH; [reflexivity|]. intros Hb. apply H. now right.
Qed.

Lemma exec_writes s : writes (exec s) (lines_of (exec s)).
Proof.
  destruct s as [f r|s]; cbn [exec].
  - rewrite (writes_lines_of _ _ (call_writes f r)). apply call_writes.
  - apply writes_print.
Qed.

Lemma exec_all_writes ss :
  writes (exec_all ss) (flat_map (fun s => lines_of (exec s)) ss).
Proof.
  induction ss as [|s ss IH]; cbn [exec_all flat_map].
  - apply writes_ret.
  - apply writes_seq; [apply exec_writes | exact IH].
Qed.

Lemma call_no_blank f r : ~ In "" (lines_of (call f r)).
Proof.
  rewrite (writes_lines_of _ _ (call_writes f r)).
  intros H. apply in_map_iff in H as [t [E _]]. now apply line_not_empty in E.
Qed.

Lemma filter_flat_map {A B} (p : B -> bool) (f : A -> list B) xs :
  filter p (flat_map f xs) = flat_map (fun x => filter p (f x)) xs.
Proof.
  induction xs as [|x xs IH]; [reflexivity|].
  cbn [flat_map]. now rewrite filter_app, IH.
Qed.

Lemma filter_map_comm {A B} (p : B -> bool) (f : A -> B) xs :
  filter p (map f xs) = map f (filter (fun x => p (f x)) xs).
Proof.
  induction xs as [|x xs IH]; [reflexivity|].
  cbn [map filter]. rewrite IH. now destruct (p (f x)).
Qed.

Lemma flat_map_filter {A B} (p : A -> bool) (g : A -> list B) xs :
  flat_map (fun x => if p x then g x else []) xs = flat_map g (filter p xs).
Proof.
  induction xs as [|x xs IH]; [reflexivity|].
  cbn [flat_map filter]. rewrite IH. now destruct (p x).
Qed.

Lemma filter_seq_below (f : nat -> Z) r n :
  (forall m, f m = Z.of_nat m) ->
  filter (fun i => i <? r) (map f (seq 0 n))
  = map f (seq 0 (Nat.min n (Z.to_nat r))).
Proof.
  intros Hf. induction n as [|n IH]; [reflexivity|].
  rewrite seq_S, map_app, filter_app, IH. cbn [plus map filter].
  destruct (Z.ltb_spec (f n) r) as [H|H]; rewrite Hf in H.
  - replace (Nat.min (S n) (Z.to_nat r)) with (S n) by lia.
    replace (Nat.min n (Z.to_nat r)) with n by lia.
    now rewrite seq_S, map_app.
  - replace (Nat.min (S n) (Z.to_nat r)) with (Nat.min n (Z.to_nat r))
      by lia.
    apply app_nil_r.
Qed.

Lemma filter_range r r' :
  r <= r' -> filter (fun i => i <? r) (range 0 r') = range 0 r.
Proof.
  intros H. unfold range. rewrite filter_seq_below by (intros; lia).
  do 2 f_equal. lia.
Qed.

Lemma tuples_restrict k r r' :
  r <= r' ->
  Generic.tuples k r
  = filter (forallb (fun i => i <? r)) (Generic.tuples k r').
Proof.
  intros H. induction k as [|k IH]; [reflexivity|].
  cbn [Generic.tuples]. rewrite filter_flat_map.
  transitivity
    (flat_map (fun i => if i <? r then map (cons i) (Generic.tuples k r)
                        else [])
              (range 0 r')).
  - now rewrite flat_map_filter, filter_range.
  - apply flat_map_ext. intros i. rewrite filter_map_comm. cbn [forallb].
    destruct (i <? r); cbn [andb].
    + rewrite IH. reflexivity.
    + clear. induction (Generic.tuples k r'); auto.
Qed.

Lemma below_line r t :
  below r (Generic.line t) = forallb (fun i => i <? r) t.
Proof. unfold below. now rewrite indices_line. Qed.

Lemma value_repeat_0 r k : value r (repeat 0 k) = 0.
Proof.
  induction k as [|k IH]; [reflexivity|]. cbn [repeat value].
  rewrite IH. lia.
Qed.

Lemma tuples_nth_value k r n t :
  nth_error (Generic.tuples k r) n = Some t -> value r t = Z.of_nat n.
Proof.
  revert t. induction n as [|n IH]; intros t Hn.
  - destruct (Z.lt_ge_cases 0 r) as [Hr|Hr].
    + pose proof (tuples_hd k r Hr) as Hh.
      destruct (Generic.tuples k r); [discriminate|].
      cbn in Hn, Hh. injection Hn as <-. rewrite Hh. apply value_repeat_0.
    + apply nth_error_In, tuples_In in Hn as [_ Ht].
      destruct Ht as [|i t Hi _]; [reflexivity|lia].
  - destruct (nth_error (Generic.tuples k r) n) as [t0|] eqn:E0.
    + pose proof (adjacent_nth _ _ _ _ _ (tuples_adjacent k r) E0 Hn) as S.
      cbv beta in S.
      assert (in_range r t0) as Ht0
          by (apply (tuples_In k r t0), (nth_error_In _ _ E0)).
      rewrite (successor_value r t0 t Ht0 S), (IH t0 eq_refl). lia.
    + apply nth_error_None in E0.
      assert (nth_error (Generic.tuples k r) (S n) = None) as N
          by (apply nth_error_None; lia).
      congruence.
Qed.

Lemma last_map_nonempty {A B} (f : A -> B) xs d d' :
  xs <> [] -> last (map f xs) d = f (last xs d').
Proof.
  induction xs as [|x [|y xs] IH]; [contradiction|reflexivity|].
  intros _. change (last (map f (y :: xs)) d = f (last (y :: xs) d')).
  apply IH. discriminate.
Qed.

End More.

Section Commas.

Lemma split_on_count sep s :
  List.length (Line.split_on sep s) = S (count_char sep s).
Proof.
  induction s as [|c s IH]; [reflexivity|].
  cbn [Line.split_on count_char]. destruct (Ascii.eqb c sep).
  - cbn [List.length]. now rewrite IH.
  - destruct (Line.split_on sep s); [discriminate|exact IH].
Qed.

End Commas.

(** ** Further properties of the batches *)

(** X1: for every integer r, negative ones included, each of the four
    functions ends without an exception and writes max(0, r)^k lines, k
    being its swizzle length; for r <= 0 it writes nothing. *)
Theorem swizzels_any_integer (f : func) (r : Z) :
  terminates_normally (call f r)
  /\ Z.of_nat (List.length (lines_of (call f r)))
     = Z.max 0 r ^ Z.of_nat (swizzle_length f)
  /\ (r <= 0 -> lines_of (call f r) = []).
Proof.
  pose proof (call_writes f r) as W.
  split; [exact (writes_terminates _ _ W)|].
  rewrite (writes_lines_of _ _ W), length_map, tuples_length. split.
  - rewrite Nat2Z.inj_pow. f_equal. lia.
  - intros Hr. replace (Z.to_nat r) with 0%nat by lia.
    assert (Generic.tuples (swizzle_length f) r = []) as ->; [|reflexivity].
    destruct f; cbn [swizzle_length Generic.tuples]; unfold range;
      now replace (Z.to_nat (r - 0)) with 0%nat by lia.
Qed.

(** X2: for every integer r, no line occurs twice in a batch, also when
    r exceeds 4 and labels are partly empty. *)
Theorem batch_lines_distinct (f : func) (r : Z) :
  NoDup (lines_of (call f r)).
Proof.
  rewrite (writes_lines_of _ _ (call_writes f r)).
  apply NoDup_map_inj; [apply line_inj | apply tuples_NoDup].
Qed.

(** X3: for r at most 4, the label strings of a batch are pairwise
    distinct: a swizzle name identifies its line. *)
Theorem batch_labels_distinct (f : func) (r : Z) :
  r <= 4 -> NoDup (map Line.label (lines_of (call f r))).
Proof.
  intros Hr. rewrite (writes_lines_of _ _ (call_writes f r)), map_map.
  apply NoDup_map_inj_in; [|apply tuples_NoDup].
  intros t u Ht Hu. rewrite !label_line.
  apply tuples_In in Ht as [_ Ht]. apply tuples_In in Hu as [_ Hu].
  apply labels_inj; now apply (in_range_mono r 4).
Qed.

Lemma batch_labels_distinct_witness :
  NoDup (map Line.label (lines_of (call f_vec3_swizzels 4))).
Proof. apply (batch_labels_distinct f_vec3_swizzels 4); lia. Defined.

(** X4: for r above 4 and swizzle length 2, 3 or 4, a batch has two
    different lines with the same label string: beyond the alphabet the
    label no longer identifies the line. *)
Theorem batch_labels_collide (f : func) (r : Z) :
  f <> f_unit_swizzels -> 4 < r ->
  exists l1 l2,
    In l1 (lines_of (call f r)) /\ In l2 (lines_of (call f r))
    /\ l1 <> l2 /\ Line.label l1 = Line.label l2.
Proof.
  intros Hf Hr. rewrite (writes_lines_of _ _ (call_writes f r)).
  set (k := swizzle_length f).
  exists (Generic.line (0 :: 4 :: repeat 0 (k - 2))),
         (Generic.line (4 :: 0 :: repeat 0 (k - 2))).
  assert (forall a b, 0 <= a < r -> 0 <= b < r ->
            In (a :: b :: repeat 0 (k - 2)) (Generic.tuples k r)) as Hin.
  { intros a b Ha Hb. apply tuples_In. split.
    - cbn [List.length]. rewrite repeat_length.
      subst k. destruct f; cbn [swizzle_length]; congruence || lia.
    - repeat constructor; try lia.
      apply Forall_forall. intros x Hx. apply repeat_spec in Hx. lia. }
  split; [apply in_map, Hin; lia|]. split; [apply in_map, Hin; lia|]. split.
  - intros E. apply line_inj in E. discriminate.
  - rewrite !label_line. cbn [map]. rewrite !concat_nil_cons. reflexivity.
Qed.

Lemma batch_labels_collide_witness :
  exists l1 l2,
    In l1 (lines_of (call f_vec2_swizzels 5))
    /\ In l2 (lines_of (call f_vec2_swizzels 5))
    /\ l1 <> l2 /\ Line.label l1 = Line.label l2.
Proof.
  apply (batch_labels_collide f_vec2_swizzels 5); [discriminate | lia].
Defined.

(** X5: for r <= r', the batch for r is the batch for r' with the lines
    removed that have an index of r or more, the other lines keeping
    their order. *)
Theorem batch_restricts (f : func) (r r' : Z) :
  r <= r' ->
  lines_of (call f r) = filter (below r) (lines_of (call f r')).
Proof.
  intros H.
  rewrite (writes_lines_of _ _ (call_writes f r)).
  rewrite (writes_lines_of _ _ (call_writes f r')).
  rewrite filter_map_comm, (tuples_restrict _ r r' H).
  f_equal. apply filter_ext. intros t. now rewrite below_line.
Qed.

Lemma batch_restricts_witness :
  lines_of (call f_vec2_swizzels 2)
  = filter (below 2) (lines_of (call f_vec2_swizzels 4)).
Proof. apply (batch_restricts f_vec2_swizzels 2 4). lia. Defined.

(** X6: the line at position n of a batch (counting from 0) reads back as
    the tuple that denotes n in base r. *)
Theorem line_position_value (f : func) (r : Z) (n : nat) (l : string) :
  nth_error (lines_of (call f r)) n = Some l ->
  exists t, Line.indices l = Some t /\ Odometer.value r t = Z.of_nat n.
Proof.
  rewrite (writes_lines_of _ _ (call_writes f r)), nth_error_map.
  destruct (nth_error (Generic.tuples (swizzle_length f) r) n) as [t|] eqn:E;
    [|discriminate].
  intros [= <-]. exists t. split; [apply indices_line|].
  apply (tuples_nth_value _ _ _ _ E).
Qed.

Lemma line_position_value_witness :
  exists t, Line.indices "zy, 2, 1," = Some t
            /\ Odometer.value 3 t = Z.of_nat 7.
Proof.
  apply (line_position_value f_vec2_swizzels 3 7 "zy, 2, 1,"). reflexivity.
Defined.

(** X7: every tuple of the right length over [{0, ..., r-1}] has its
    line, at the position the tuple denotes in base r. *)
Theorem tuple_line_position (f : func) (r : Z) (t : list Z) :
  List.length t = swizzle_length f -> in_range r t ->
  exists l,
    nth_error (lines_of (call f r)) (Z.to_nat (Odometer.value r t)) = Some l
    /\ Line.indices l = Some t.
Proof.
  intros Hl Ht.
  rewrite (writes_lines_of _ _ (call_writes f r)), nth_error_map.
  pose proof (value_bound r t Ht) as B. rewrite Hl in B.
  assert (0 <= r) as Hr.
  { destruct Ht as [|i t Hi _]; [|lia].
    destruct f; discriminate. }
  destruct (nth_error (Generic.tuples (swizzle_length f) r)
                      (Z.to_nat (Odometer.value r t))) as [u|] eqn:E.
  - exists (Generic.line u). split; [reflexivity|].
    rewrite indices_line. f_equal.
    pose proof (tuples_nth_value _ _ _ _ E) as V.
    apply nth_error_In, tuples_In in E as [Hlu Hu].
    apply (value_inj r); trivial; lia.
  - apply nth_error_None in E.
    pose proof (tuples_length_Z (swizzle_length f) r Hr). lia.
Qed.

Lemma tuple_line_position_witness :
  exists l,
    nth_error (lines_of (call f_vec3_swizzels 4))
              (Z.to_nat (Odometer.value 4 [3; 0; 2])) = Some l
    /\ Line.indices l = Some [3; 0; 2].
Proof.
  apply (tuple_line_position f_vec3_swizzels 4 [3; 0; 2]);
    [reflexivity | repeat constructor; lia].
Defined.

(** X8: for r at least 1, the first line of a batch has only the index 0
    and the label made of x's, and the last line has only the index
    r - 1. *)
Theorem batch_first_last (f : func) (r : Z) :
  1 <= r ->
  exists first,
    hd_error (lines_of (call f r)) = Some first
    /\ Line.indices first = Some (repeat 0 (swizzle_length f))
    /\ Line.label first = String.concat "" (repeat "x" (swizzle_length f))
    /\ Line.indices (last (lines_of (call f r)) "")
       = Some (repeat (r - 1) (swizzle_length f)).
Proof.
  intros Hr. rewrite (writes_lines_of _ _ (call_writes f r)).
  set (k := swizzle_length f).
  assert (0 < r) as Hr' by lia.
  pose proof (tuples_nonempty k r Hr') as Hne.
  pose proof (tuples_hd k r Hr') as Hh.
  exists (Generic.line (repeat 0 k)). split.
  - destruct (Generic.tuples k r) as [|t0 T]; [contradiction|].
    cbn in Hh. now subst.
  - rewrite indices_line, label_line, map_repeat. split; [reflexivity|].
    split; [reflexivity|].
    rewrite (last_map_nonempty _ _ _ [] Hne), indices_line.
    now rewrite tuples_last.
Qed.

Lemma batch_first_last_witness :
  exists first,
    hd_error (lines_of (call f_vec3_swizzels 2)) = Some first
    /\ Line.indices first = Some (repeat 0 (swizzle_length f_vec3_swizzels))
    /\ Line.label first
       = String.concat "" (repeat "x" (swizzle_length f_vec3_swizzels))
    /\ Line.indices (last (lines_of (call f_vec3_swizzels 2)) "")
       = Some (repeat (2 - 1) (swizzle_length f_vec3_swizzels)).
Proof. apply (batch_first_last f_vec3_swizzels 2). lia. Defined.

(** X9: no function ever writes an empty line, so the empty lines of the
    listing delimit the batches: for any sequence of calls, each followed
    by the printing of an empty line, the run ends normally and the groups
    of its output are the batches of the calls, in order; in particular
    for the script itself. *)
Theorem batches_recoverable (cs : list (func * Z)) :
  (forall c, In c cs -> ~ In "" (lines_of (call (fst c) (snd c))))
  /\ terminates_normally (exec_all (batch_script cs))
  /\ groups (lines_of (exec_all (batch_script cs)))
     = map (fun c => lines_of (call (fst c) (snd c))) cs
  /\ groups (lines_of main)
     = map (fun kr => lines_of (emit (fst kr) (snd kr)))
           (invocations script).
Proof.
  split; [intros c _; apply call_no_blank|].
  pose proof (exec_all_writes (batch_script cs)) as W.
  split; [exact (writes_terminates _ _ W)|].
  assert (forall cs,
            groups (lines_of (exec_all (batch_script cs)))
            = map (fun c => lines_of (call (fst c) (snd c))) cs) as G.
  { clear. intros cs.
    rewrite (writes_lines_of _ _ (exec_all_writes (batch_script cs))).
    induction cs as [|[f r] cs IH]; [reflexivity|].
    change (batch_script ((f, r) :: cs))
      with (Call f r :: Print "" :: batch_script cs).
    cbn [flat_map map fst snd exec].
    change (lines_of (print "")) with [""]. cbn [app].
    rewrite groups_app by apply call_no_blank. now rewrite IH. }
  split; [apply G|].
  exact (G [ (f_unit_swizzels, 2); (f_unit_swizzels, 3); (f_unit_swizzels, 4);
             (f_vec2_swizzels, 2); (f_vec2_swizzels, 3); (f_vec2_swizzels, 4);
             (f_vec3_swizzels, 2); (f_vec3_swizzels, 3); (f_vec3_swizzels, 4);
             (f_vec4_swizzels, 2); (f_vec4_swizzels, 3);
             (f_vec4_swizzels, 4) ]).
Qed.

(** X10: every line of a batch ends with a comma and has exactly k + 1
    commas, k being the swizzle length: one after the label and one after
    each index. *)
Theorem line_commas (f : func) (r : Z) (l : string) :
  In l (lines_of (call f r)) ->
  count_char "," l = S (swizzle_length f)
  /\ exists body, l = (body ++ ",")%string.
Proof.
  rewrite (writes_lines_of _ _ (call_writes f r)).
  intros H. apply in_map_iff in H as [t [<- Ht]].
  apply tuples_In in Ht as [Hl _]. split.
  - pose proof (split_on_count "," (Generic.line t)) as C.
    rewrite split_on_line in C. cbn [List.length] in C.
    rewrite length_app, length_map, Hl in C. cbn [List.length] in C. lia.
  - unfold Generic.line. rewrite <- append_assoc. eauto.
Qed.

Lemma line_commas_witness :
  count_char "," "wz, 3, 2," = S (swizzle_length f_vec2_swizzels)
  /\ exists body, "wz, 3, 2," = (body ++ ",")%string.
Proof.
  apply (line_commas f_vec2_swizzels 4 "wz, 3, 2,").
  vm_compute. do 14 right. left. reflexivity.
Defined.
